(** * read_exact: the documentation search index and the utility it describes

    The repository ships one JavaScript file, [search-index.js]: a data
    literal assigned into the global [searchIndex] table, followed by a call
    to the viewer's [initSearch].  Module [SearchIndex] embeds that program
    (syntax, heap, evaluation) and states the shape of the table it builds.

    The index documents the crate's one method, [read_exact_or_eof].  Its
    Rust source is not part of the shipped file; module [ReadExact] models it
    from the written contract. *)

From Stdlib Require Import ZArith Lia.
From stdpp Require Import base list strings.

Set Warnings "-register-all".

(* ===================================================================== *)
(** ** The bounded-read utility                                           *)
(* ===================================================================== *)

Module ReadExact.

Section Utility.

(** Lower-level I/O failures, whatever the reader can raise. *)
Context {E : Type}.

(** Modelled from the spec: the utility's error type (its Rust source is
    missing), "two failure kinds only": the unexpected end of input and a
    propagated lower-level failure. *)
Inductive error :=
  | UnexpectedEof
  | Io (e : E).

(** What one call of the reader's [read] hands back: the bytes it produced
    (none of them at end-of-stream) or a lower-level failure. *)
Inductive io_result :=
  | ReadOk (bs : list Byte.byte)
  | ReadErr (e : E).

(** A readable byte source, as the sequence of things its next reads will
    meet: a run of available bytes, or a failure.  The exhausted source
    [[]] is at end-of-stream for good; a run of no bytes is one
    end-of-stream report with more to come (an interactive input). *)
Inductive event :=
  | Data (bs : list Byte.byte)
  | Fail (e : E).

Definition source := list event.

(** Modelled from the spec: the reader's read primitive, which the crate
    takes from the standard library.  [read src n] is one read into a
    window of [n] bytes.  A run longer than the window is cut; what is
    left of it stays in front. *)
Definition read (src : source) (n : nat) : io_result * source :=
  match src with
  | [] => (ReadOk [], [])
  | Fail e :: rest => (ReadErr e, rest)
  | Data bs :: rest =>
      (ReadOk (take n bs),
       match drop n bs with
       | [] => rest
       | more => Data more :: rest
       end)
  end.

(** The source reports end-of-stream at its next read. *)
Definition at_eof (src : source) : bool :=
  match src with
  | [] => true
  | Data [] :: _ => true
  | _ => false
  end.

(** [write buf off bs]: store [bs] into the buffer from offset [off]. *)
Definition write (buf : list Byte.byte) (off : nat) (bs : list Byte.byte)
  : list Byte.byte :=
  take off buf ++ bs ++ drop (off + length bs) buf.

(** How the read loop was left. *)
Inductive loop_exit :=
  | Filled                (* the offset reached the buffer's length *)
  | Ended                 (* a read reported end-of-stream *)
  | Failed (e : E).       (* a read failed *)

Record loop_state := LoopState {
  ls_exit : loop_exit;
  ls_off : nat;
  ls_buf : list Byte.byte;
  ls_src : source
}.

(** Modelled from the spec: the Rust body of [read_exact_or_eof] is missing;
    the contract calls it "a single guarded loop with two exit conditions"
    that keeps "a running offset counter".  [fill_loop] is that loop: while
    the buffer is not full, read into the unfilled part; a failure leaves at
    once, no bytes ends the loop, bytes advance the offset.  [fuel] bounds
    the iterations; [None] means it ran out. *)
Fixpoint fill_loop (fuel : nat) (src : source) (buf : list Byte.byte)
    (off : nat) : option loop_state :=
  if length buf <=? off then Some (LoopState Filled off buf src)
  else
    match fuel with
    | 0 => None
    | S fuel' =>
        match read src (length buf - off) with
        | (ReadErr e, src') => Some (LoopState (Failed e) off buf src')
        | (ReadOk [], src') => Some (LoopState Ended off buf src')
        | (ReadOk bs, src') =>
            fill_loop fuel' src' (write buf off bs) (off + length bs)
        end
    end.

(** Success carries the number of bytes filled. *)
Inductive result :=
  | Ok (filled : nat)
  | Err (e : error).

Record outcome := Outcome {
  out_result : result;
  out_buf : list Byte.byte;
  out_src : source
}.

(** Modelled from the spec: the end of the missing Rust body, the four
    cases of the contract.  A lower-level failure goes through; no byte at
    all is success with nothing filled; a full buffer is success; anything
    in between is the unexpected end of input. *)
Definition conclude (st : loop_state) : outcome :=
  let N := length (ls_buf st) in
  let r :=
    match ls_exit st with
    | Failed e => Err (Io e)
    | _ =>
        if ls_off st =? 0 then Ok 0
        else if ls_off st <? N then Err UnexpectedEof
        else Ok (ls_off st)
    end in
  Outcome r (ls_buf st) (ls_src st).

(** Modelled from the spec: [read_exact_or_eof] itself (missing from the
    shipped file), "given a destination buffer of length N and a readable
    byte source, attempt to fill the buffer completely".  Every iteration
    that goes on has stored at least one byte, so [length buf] iterations
    are enough. *)
Definition read_exact_or_eof (src : source) (buf : list Byte.byte)
  : option outcome :=
  conclude <$> fill_loop (length buf) src buf 0.

(** A source that starts with the given non-empty runs of bytes. *)
Definition runs (chunks : list (list Byte.byte)) (tail : source) : source :=
  (Data <$> chunks) ++ tail.

Definition nonempty (bs : list Byte.byte) : Prop := bs ≠ [].

End Utility.

Arguments error : clear implicits.
Arguments io_result : clear implicits.
Arguments event : clear implicits.
Arguments source : clear implicits.
Arguments loop_exit : clear implicits.
Arguments loop_state : clear implicits.
Arguments result : clear implicits.
Arguments outcome : clear implicits.

End ReadExact.

(* ===================================================================== *)
(** ** The program of search-index.js                                     *)
(* ===================================================================== *)

Module SearchIndex.

Open Scope Z_scope.

(** *** Values and the heap

    Objects and arrays are heap cells reached through references, so that
    the table held by the variable [searchIndex] and the table handed to
    [initSearch] are one and the same object.  The numbers of this file are
    small integer literals and are kept as [Z]. *)

Inductive value :=
  | VUndefined
  | VNull
  | VNum (n : Z)
  | VStr (s : string)
  | VRef (l : nat).

(** An object keeps its own properties in insertion order (all keys of this
    file are non-numeric strings, for which that is the enumeration order);
    an array keeps its elements. *)
Inductive cell :=
  | Object (props : list (string * value))
  | Array (elems : list value).

Definition heap := list cell.

(** *** Syntax: the constructs the file uses *)

Inductive expr :=
  | ENull
  | ENum (n : Z)
  | EStr (s : string)
  | EVar (x : string)
  | EArray (es : list expr)
  | EObject (ps : list (string * expr))
  | ECall (f : string) (args : list expr).

Inductive stmt :=
  | SVar (x : string) (init : expr)              (* var x = init;   *)
  | SAssignMember (o : expr) (k : expr) (rhs : expr)  (* o[k] = rhs; *)
  | SExpr (e : expr).                            (* e;              *)

(** *** Evaluation: state and abrupt completion *)

Inductive completion (A : Type) :=
  | Normal (a : A)
  | Throw (v : value)
  | Unsupported.       (* JavaScript behaviour this embedding leaves out *)

Arguments Normal {A} a.
Arguments Throw {A} v.
Arguments Unsupported {A}.

(** One call out of the script: the callee's name, the argument values and
    the heap as it was when the call was made. *)
Record call_event := Call {
  call_fn : string;
  call_args : list value;
  call_heap : heap
}.

Record state := State {
  st_heap : heap;
  st_env : list (string * value);     (* the script's global variables *)
  st_trace : list call_event
}.

Definition initial : state := State [] [] [].

Definition M (A : Type) : Type := state → state * completion A.

Definition ret {A} (a : A) : M A := fun st => (st, Normal a).

Definition bind {A B} (m : M A) (f : A → M B) : M B :=
  fun st =>
    match m st with
    | (st', Normal a) => f a st'
    | (st', Throw v) => (st', Throw v)
    | (st', Unsupported) => (st', Unsupported)
    end.

Notation "'let*' x ':=' m 'in' k" := (bind m (fun x => k))
  (at level 10, x name, m at level 100, k at level 200).
Notation "'run' m 'in' k" := (bind m (fun _ => k))
  (at level 10, m at level 100, k at level 200).

Definition throw {A} (v : value) : M A := fun st => (st, Throw v).
Definition unsupported {A} : M A := fun st => (st, Unsupported).

Definition TypeError : value := VStr "TypeError".
Definition ReferenceError : value := VStr "ReferenceError".

(** Association lists with JavaScript's property update: an existing key
    keeps its place and gets the new value, a new key goes last. *)
Fixpoint set_prop {V} (ps : list (string * V)) (k : string) (v : V)
  : list (string * V) :=
  match ps with
  | [] => [(k, v)]
  | (k', v') :: ps' =>
      if String.eqb k' k then (k', v) :: ps'
      else (k', v') :: set_prop ps' k v
  end.

Fixpoint get_prop {V} (ps : list (string * V)) (k : string) : option V :=
  match ps with
  | [] => None
  | (k', v') :: ps' => if String.eqb k' k then Some v' else get_prop ps' k
  end.

Definition keys {V} (ps : list (string * V)) : list string := fst <$> ps.

Definition alloc (c : cell) : M nat :=
  fun st =>
    (State (st_heap st ++ [c]) (st_env st) (st_trace st),
     Normal (length (st_heap st))).

(** [l[k] = v] on an object cell: [k] becomes, or stays, an own property.
    That is JavaScript's behaviour for every key but "__proto__", which
    names the prototype and not a property; the script has no such key. *)
Definition put (l : nat) (k : string) (v : value) : M unit :=
  fun st =>
    match st_heap st !! l with
    | Some (Object ps) =>
        (State (<[l := Object (set_prop ps k v)]> (st_heap st))
               (st_env st) (st_trace st), Normal tt)
    | _ => (st, Unsupported)
    end.

(** Append an element to an array cell (array literal construction). *)
Definition push (l : nat) (v : value) : M unit :=
  fun st =>
    match st_heap st !! l with
    | Some (Array vs) =>
        (State (<[l := Array (vs ++ [v])]> (st_heap st))
               (st_env st) (st_trace st), Normal tt)
    | _ => (st, Unsupported)
    end.

Definition get_var (x : string) : M value :=
  fun st =>
    match get_prop (st_env st) x with
    | Some v => (st, Normal v)
    | None => (st, Throw ReferenceError)
    end.

Definition set_var (x : string) (v : value) : M unit :=
  fun st =>
    (State (st_heap st) (set_prop (st_env st) x v) (st_trace st), Normal tt).

(** What a function of the host page does when called: it returns or
    throws, and in both cases may have changed the heap.  The script's
    variables are followed only as far as the script itself uses them. *)
Inductive host_result :=
  | HReturn (v : value) (h : heap)
  | HThrow (v : value) (h : heap).

Section Host.

(** The page that loads the script supplies the functions the script does
    not define; [initSearch] is one of them. *)
Variable host : string → list value → heap → host_result.

(** A call [f(args)].  The script has no function values: a name bound by
    the script is not callable, any other name is the host's. *)
Definition call (f : string) (args : list value) : M value :=
  fun st =>
    match get_prop (st_env st) f with
    | Some _ => (st, Throw TypeError)
    | None =>
        let ev := Call f args (st_heap st) in
        match host f args (st_heap st) with
        | HReturn v h' =>
            (State h' (st_env st) (st_trace st ++ [ev]), Normal v)
        | HThrow v h' =>
            (State h' (st_env st) (st_trace st ++ [ev]), Throw v)
        end
    end.

(** Literals allocate their cell first and then fill it, left to right. *)
Fixpoint eval (e : expr) : M value :=
  match e with
  | ENull => ret VNull
  | ENum n => ret (VNum n)
  | EStr s => ret (VStr s)
  | EVar x => get_var x
  | EArray es =>
      let* l := alloc (Array []) in
      run (fix elems (es : list expr) : M unit :=
             match es with
             | [] => ret tt
             | e :: es' => let* v := eval e in run push l v in elems es'
             end) es in
      ret (VRef l)
  | EObject ps =>
      let* l := alloc (Object []) in
      run (fix props (ps : list (string * expr)) : M unit :=
             match ps with
             | [] => ret tt
             | (k, e) :: ps' => let* v := eval e in run put l k v in props ps'
             end) ps in
      ret (VRef l)
  | ECall f args =>
      let* vs := (fix go (args : list expr) : M (list value) :=
                    match args with
                    | [] => ret []
                    | a :: args' =>
                        let* v := eval a in let* vs := go args' in ret (v :: vs)
                    end) args in
      call f vs
  end.

Definition exec (s : stmt) : M unit :=
  match s with
  | SVar x init => let* v := eval init in set_var x v
  | SAssignMember o k rhs =>
      let* ov := eval o in
      let* kv := eval k in
      let* rv := eval rhs in
      match ov, kv with
      | VRef l, VStr key => put l key rv
      | VRef _, _ => unsupported
      | (VUndefined | VNull), _ => throw TypeError
      | _, _ => ret tt           (* a primitive base: silently ignored *)
      end
  | SExpr e => run eval e in ret tt
  end.

(** Statements in order; an abrupt completion ends the script. *)
Fixpoint exec_all (ss : list stmt) : M unit :=
  match ss with
  | [] => ret tt
  | s :: ss' => run exec s in exec_all ss'
  end.

End Host.

(** *** The script, statement by statement *)

Definition trait_item : expr :=
  EArray [ENum 8; EStr "ReadExactExt"; EStr "read_exact";
          EStr "An extension trait that applies to all `std::io::Read` types.";
          ENull; ENull].

Definition method_item : expr :=
  EArray [ENum 10; EStr "read_exact_or_eof"; EStr EmptyString;
          EStr "Reads exactly the number of bytes to fill `buf`, or zero.";
          ENum 0; ENull].

Definition crate_doc : string :=
  "Provides a variant of `read_exact` that succeeds on EOF if no data has been
read.".

Definition crate_literal : expr :=
  EObject [("doc"%string, EStr crate_doc);
           ("items"%string, EArray [trait_item; method_item]);
           ("paths"%string, EArray [EArray [ENum 8; EStr "ReadExactExt"]])].

(** [var searchIndex = {};] *)
Definition declare_table : stmt := SVar "searchIndex" (EObject []).

(** [searchIndex["read_exact"] = {...};] *)
Definition assign_crate : stmt :=
  SAssignMember (EVar "searchIndex") (EStr "read_exact") crate_literal.

(** [initSearch(searchIndex);] *)
Definition init_call : stmt :=
  SExpr (ECall "initSearch" [EVar "searchIndex"]).

Definition program : list stmt := [declare_table; assign_crate; init_call].


(** *** Reading the table back

    The data behind a value, with the references followed: what a consumer
    sees when it walks the table. *)

Inductive tree :=
  | TUndefined
  | TNull
  | TNum (n : Z)
  | TStr (s : string)
  | TArr (elems : list tree)
  | TObj (props : list (string * tree)).

Fixpoint snapshot (depth : nat) (h : heap) (v : value) : option tree :=
  match depth with
  | O => None
  | S depth' =>
      match v with
      | VUndefined => Some TUndefined
      | VNull => Some TNull
      | VNum n => Some (TNum n)
      | VStr s => Some (TStr s)
      | VRef l =>
          match h !! l with
          | Some (Array vs) => TArr <$> mapM (snapshot depth' h) vs
          | Some (Object ps) =>
              TObj <$> mapM (fun kv => pair kv.1 <$> snapshot depth' h kv.2) ps
          | None => None
          end
      end
  end.

(** The table is four levels of containers over its leaves. *)
Definition table_depth : nat := 5.

(** What the first call of the run received as its only argument. *)
Definition passed_table
    (host : string → list value → heap → host_result) : option tree :=
  match st_trace (exec_all host program initial).1 with
  | Call _ [v] h :: _ => snapshot table_depth h v
  | _ => None
  end.

(** A host whose functions do nothing and return [undefined]. *)
Definition idle_host (f : string) (args : list value) (h : heap)
  : host_result := HReturn VUndefined h.


(** The statements that build the table, and the state they leave behind
    when the script starts from the empty state. *)
Definition construction : list stmt := [declare_table; assign_crate].

Definition built (host : string → list value → heap → host_result) : state :=
  (exec_all host construction initial).1.

(** The entries of the table the consumer receives: crate name and
    document object. *)
Definition documents
    (host : string → list value → heap → host_result)
  : list (string * tree) :=
  match passed_table host with
  | Some (TObj ps) => ps
  | _ => []
  end.

(** *** The shapes the consumer relies on *)

Definition is_num (t : tree) : bool :=
  match t with TNum _ => true | _ => false end.

Definition is_str (t : tree) : bool :=
  match t with TStr _ => true | _ => false end.

Definition is_null (t : tree) : bool :=
  match t with TNull => true | _ => false end.

Definition is_arr (t : tree) : bool :=
  match t with TArr _ => true | _ => false end.

Definition is_obj (t : tree) : bool :=
  match t with TObj _ => true | _ => false end.

(** A reference that may be absent: [null] or a number. *)
Definition is_opt_num (t : tree) : bool := is_null t || is_num t.

(** The [i]-th field of a positional tuple. *)
Definition field (t : tree) (i : nat) : option tree :=
  match t with
  | TArr l => l !! i
  | _ => None
  end.

Definition items_of (d : tree) : list tree :=
  match d with
  | TObj ps =>
      match get_prop ps "items" with Some (TArr l) => l | _ => [] end
  | _ => []
  end.

Definition paths_of (d : tree) : list tree :=
  match d with
  | TObj ps =>
      match get_prop ps "paths" with Some (TArr l) => l | _ => [] end
  | _ => []
  end.

(** An item descriptor as the interface text has it: six fields, the fifth
    a number. *)
Definition item_as_described (t : tree) : bool :=
  match t with
  | TArr [kind; name; ns; doc; xref; parent] =>
      is_num kind && is_str name && is_str ns && is_str doc
      && is_num xref && is_opt_num parent
  | _ => false
  end.

(** An item descriptor as the file has it: the fifth field may be [null]
    as well. *)
Definition item_shape (t : tree) : bool :=
  match t with
  | TArr [kind; name; ns; doc; xref; parent] =>
      is_num kind && is_str name && is_str ns && is_str doc
      && is_opt_num xref && is_opt_num parent
  | _ => false
  end.

(** A paths entry: a kind code and a name. *)
Definition path_shape (t : tree) : bool :=
  match t with
  | TArr [kind; name] => is_num kind && is_str name
  | _ => false
  end.

(** [r] is absent, or an index into [paths]. *)
Definition ref_in (paths : list tree) (r : tree) : bool :=
  match r with
  | TNull => true
  | TNum n => (0 <=? n) && (n <? Z.of_nat (length paths))
  | _ => false
  end.

(** The references an item carries: its last two fields. *)
Definition refs_of (item : tree) : list tree :=
  match item with
  | TArr [_; _; _; _; xref; parent] => [xref; parent]
  | _ => []
  end.

(** The paths entries an item points at. *)
Definition targets (paths : list tree) (item : tree) : list tree :=
  omap (fun r => match r with
                 | TNum n => paths !! Z.to_nat n
                 | _ => None
                 end) (refs_of item).

(** Kind code and name, the part an item and a paths entry have in common. *)
Definition kind_and_name (t : tree) : option (tree * tree) :=
  match t with
  | TArr (kind :: name :: _) => Some (kind, name)
  | _ => None
  end.

(** The names of the items of a document, in list order. *)
Definition item_names (d : tree) : list tree :=
  omap (fun item => field item 1) (items_of d).

(** The items of a document that carry a reference other than [null]. *)
Definition referring_items (d : tree) : list tree :=
  filter (fun item => existsb (fun r => negb (is_null r)) (refs_of item) = true)
    (items_of d).


(** *** The loops of [eval], by name

    [eval] fills an array, an object and an argument list with local
    loops; these are the same loops as functions of their own. *)

Definition eval_elems (host : string → list value → heap → host_result)
    (l : nat) : list expr → M unit :=
  fix elems (es : list expr) : M unit :=
    match es with
    | [] => ret tt
    | e :: es' => let* v := eval host e in run push l v in elems es'
    end.

Definition eval_props (host : string → list value → heap → host_result)
    (l : nat) : list (string * expr) → M unit :=
  fix props (ps : list (string * expr)) : M unit :=
    match ps with
    | [] => ret tt
    | (k, e) :: ps' => let* v := eval host e in run put l k v in props ps'
    end.

Definition eval_args (host : string → list value → heap → host_result)
  : list expr → M (list value) :=
  fix go (args : list expr) : M (list value) :=
    match args with
    | [] => ret []
    | a :: args' =>
        let* v := eval host a in let* vs := go args' in ret (v :: vs)
    end.

(** A data literal: no variable is read and nothing is called. *)
Fixpoint literal (e : expr) : bool :=
  match e with
  | ENull | ENum _ | EStr _ => true
  | EVar _ | ECall _ _ => false
  | EArray es => forallb literal es
  | EObject ps => forallb (fun kv => let '(_, e) := kv in literal e) ps
  end.

(** *** Moving cells along the heap *)

(** A value, and a cell, as they read [n] places further down the heap. *)
Definition shift (n : nat) (v : value) : value :=
  match v with
  | VRef l => VRef (n + l)
  | _ => v
  end.

Definition shift_cell (n : nat) (c : cell) : cell :=
  match c with
  | Object ps => Object ((fun kv => (kv.1, shift n kv.2)) <$> ps)
  | Array vs => Array (shift n <$> vs)
  end.


(** A state, and a completion, as they read when the cells of [h0] lie in
    front of the heap. *)
Definition relocate (h0 : heap) (st : state) : state :=
  State (h0 ++ (shift_cell (length h0) <$> st_heap st))
        (st_env st) (st_trace st).

Definition relocate_result {A} (n : nat) (f : A → A) (r : completion A)
  : completion A :=
  match r with
  | Normal a => Normal (f a)
  | Throw v => Throw (shift n v)
  | Unsupported => Unsupported
  end.


(** [m'] does behind [h0] what [m] does without it, results read through
    [f]. *)
Definition relocates {A} (h0 : heap) (m m' : M A) (f : A → A) : Prop :=
  ∀ st, m' (relocate h0 st)
        = (relocate h0 (m st).1, relocate_result (length h0) f (m st).2).

(** *** Objects without a repeated key *)

Definition keys_unique (c : cell) : Prop :=
  match c with
  | Object ps => NoDup (keys ps)
  | Array _ => True
  end.

Definition heap_keys_unique (h : heap) : Prop := Forall keys_unique h.

Definition host_heap (r : host_result) : heap :=
  match r with
  | HReturn _ h => h
  | HThrow _ h => h
  end.

End SearchIndex.

(* ===================================================================== *)
(** ** Properties of the bounded-read utility                             *)
(* ===================================================================== *)

Module ReadExactSpec.

Import ReadExact.

Section Facts.

Context {E : Type}.

Implicit Types (src tail rest : source E) (buf bs : list Byte.byte).
Implicit Types (chunks : list (list Byte.byte)) (off fuel : nat).

(** *** Writing into the buffer *)

Lemma write_length buf off bs :
  off + length bs ≤ length buf → length (write buf off bs) = length buf.
Proof.
  intros Hfit. unfold write.
  rewrite !length_app, length_take, length_drop. lia.
Qed.

Lemma write_nil buf off : write buf off [] = buf.
Proof.
  unfold write. simpl. rewrite Nat.add_0_r. apply take_drop.
Qed.

Lemma write_write buf off a b :
  off + length a ≤ length buf →
  write (write buf off a) (off + length a) b = write buf off (a ++ b).
Proof.
  intros Hfit. unfold write.
  assert (Htake : length (take off buf) = off)
    by (rewrite length_take; lia).
  rewrite (app_assoc (take off buf) a).
  rewrite take_app_length' by (rewrite length_app; lia).
  rewrite drop_app_ge by (rewrite length_app; lia).
  rewrite length_app, Htake.
  replace (off + length a + length b - (off + length a)) with (length b)
    by lia.
  rewrite drop_drop, length_app, <- !app_assoc.
  do 4 f_equal. lia.
Qed.

Lemma write_all buf bs : length bs = length buf → write buf 0 bs = bs.
Proof.
  intros Hlen. unfold write. simpl.
  rewrite drop_ge by lia. apply app_nil_r.
Qed.

(** *** One read *)

Lemma read_run bs rest n :
  length bs ≤ n → read (Data bs :: rest) n = (ReadOk bs, rest).
Proof.
  intros Hfit. unfold read.
  rewrite take_ge, drop_ge by lia. reflexivity.
Qed.

Lemma read_eof src n :
  at_eof src = true → read src n = (ReadOk [], drop 1 src).
Proof.
  destruct src as [|[[|b bs]|e] rest]; simpl; try discriminate; intros _.
  - reflexivity.
  - rewrite take_nil, drop_nil, drop_0. reflexivity.
Qed.

Lemma chunks_length chunks :
  Forall nonempty chunks → length chunks ≤ length (concat chunks).
Proof.
  induction 1 as [|c chunks Hc _ IH]; simpl; [lia|].
  rewrite length_app. destruct c; [by destruct Hc|]. simpl. lia.
Qed.

(** *** The loop over a source that starts with runs of bytes *)

Lemma fill_loop_full fuel src buf off :
  length buf ≤ off →
  fill_loop fuel src buf off = Some (LoopState Filled off buf src).
Proof.
  intros Hfull. destruct fuel; simpl;
    (destruct (length buf <=? off) eqn:Hle;
     [reflexivity | apply Nat.leb_gt in Hle; lia]).
Qed.

Lemma fill_loop_run fuel bs rest buf off :
  nonempty bs → off + length bs ≤ length buf →
  fill_loop (S fuel) (Data bs :: rest) buf off
  = fill_loop fuel rest (write buf off bs) (off + length bs).
Proof.
  intros Hne Hfit.
  destruct bs as [|b bs]; [by destruct Hne|]. simpl in Hfit.
  cbn [fill_loop].
  destruct (length buf <=? off) eqn:Hle; [apply Nat.leb_le in Hle; lia|].
  rewrite read_run by (simpl; lia). reflexivity.
Qed.

Lemma fill_loop_runs chunks : ∀ fuel tail buf off,
  Forall nonempty chunks →
  off + length (concat chunks) ≤ length buf →
  fill_loop (length chunks + fuel) (runs chunks tail) buf off
  = fill_loop fuel tail (write buf off (concat chunks))
      (off + length (concat chunks)).
Proof.
  induction chunks as [|c chunks IH]; intros fuel tail buf off Hne Hfit.
  - simpl. rewrite write_nil, Nat.add_0_r. reflexivity.
  - apply Forall_cons in Hne as [Hc Hne].
    simpl in Hfit. rewrite length_app in Hfit.
    change (runs (c :: chunks) tail) with (Data c :: runs chunks tail).
    cbn [length Nat.add].
    rewrite fill_loop_run by (done || lia).
    rewrite IH by (done || rewrite write_length; lia).
    rewrite write_write by lia.
    cbn [concat]. rewrite length_app. f_equal. lia.
Qed.

(** With the buffer's length as fuel, the loop gets through the leading
    runs and arrives at what follows them with fuel left. *)
Lemma fill_loop_prefix chunks tail buf :
  Forall nonempty chunks →
  length (concat chunks) ≤ length buf →
  fill_loop (length buf) (runs chunks tail) buf 0
  = fill_loop (length buf - length chunks) tail
      (write buf 0 (concat chunks)) (length (concat chunks)).
Proof.
  intros Hne Hfit.
  pose proof (chunks_length chunks Hne) as Hlen.
  replace (length buf) with (length chunks + (length buf - length chunks))
    at 1 by lia.
  rewrite fill_loop_runs by (done || simpl; lia). reflexivity.
Qed.


Lemma fill_loop_eof fuel tail buf off :
  at_eof tail = true → off < length buf →
  fill_loop (S fuel) tail buf off
  = Some (LoopState Ended off buf (drop 1 tail)).
Proof.
  intros Heof Hroom. cbn [fill_loop].
  destruct (length buf <=? off) eqn:Hle; [apply Nat.leb_le in Hle; lia|].
  rewrite read_eof by done. reflexivity.
Qed.

Lemma fill_loop_fail fuel e rest buf off :
  off < length buf →
  fill_loop (S fuel) (Fail e :: rest) buf off
  = Some (LoopState (Failed e) off buf rest).
Proof.
  intros Hroom. cbn [fill_loop].
  destruct (length buf <=? off) eqn:Hle; [apply Nat.leb_le in Hle; lia|].
  reflexivity.
Qed.

(** *** What an exit of the loop says about the source *)

Lemma fill_loop_sound fuel : ∀ src buf off st,
  off ≤ length buf →
  fill_loop fuel src buf off = Some st →
  length (ls_buf st) = length buf ∧
  match ls_exit st with
  | Filled => ls_off st = length buf
  | Failed _ => ls_off st < length buf
  | Ended =>
      ls_off st < length buf ∧
      ∃ chunks tail,
        src = runs chunks tail ∧ Forall nonempty chunks ∧
        ls_off st = off + length (concat chunks) ∧ at_eof tail = true
  end.
Proof.
  induction fuel as [|fuel IH]; intros src buf off st Hoff Hrun;
    cbn [fill_loop] in Hrun;
    destruct (length buf <=? off) eqn:Hle;
    try (apply Nat.leb_le in Hle; injection Hrun as <-; simpl;
         split; [reflexivity | lia]);
    try discriminate.
  apply Nat.leb_gt in Hle.
  destruct src as [|[bs|e] rest]; cbn [read] in Hrun.
  - injection Hrun as <-. simpl. split; [reflexivity|]. split; [lia|].
    exists [], []. split; [reflexivity|]. split; [constructor|].
    split; [simpl; lia | reflexivity].
  - destruct (take (length buf - off) bs) as [|b got] eqn:Htake.
    + assert (bs = []) as ->.
      { destruct bs; [reflexivity|].
        destruct (length buf - off) eqn:Hn; [lia | discriminate]. }
      injection Hrun as <-. simpl. split; [reflexivity|]. split; [lia|].
      exists [], (Data [] :: rest). split; [reflexivity|].
      split; [constructor|]. split; [simpl; lia | reflexivity].
    + pose proof (length_take bs (length buf - off)) as Hgot.
      rewrite Htake in Hgot.
      apply IH in Hrun as [Hbuf Hexit];
        [|rewrite write_length; lia].
      rewrite write_length in Hbuf, Hexit by lia.
      split; [exact Hbuf|].
      destruct (ls_exit st); [exact Hexit | | exact Hexit].
      destruct Hexit as [Hroom (chunks & tail & Hsrc & Hne & Hend & Heof)].
      split; [exact Hroom|].
      destruct (decide (length bs ≤ length buf - off)) as [Hfit|Hcut];
        [|lia].
      rewrite take_ge in Htake by lia. rewrite drop_ge in Hsrc by lia.
      subst bs rest.
      exists ((b :: got) :: chunks), tail.
      split; [reflexivity|]. split; [|split; [|exact Heof]].
      * constructor; [discriminate | exact Hne].
      * cbn [concat]. rewrite length_app. lia.
  - injection Hrun as <-. simpl. split; [reflexivity | lia].
Qed.

(** *** The loop ends within the fuel it is given *)

Lemma fill_loop_total fuel : ∀ src buf off,
  off ≤ length buf → length buf - off ≤ fuel →
  is_Some (fill_loop fuel src buf off).
Proof.
  induction fuel as [|fuel IH]; intros src buf off Hoff Hfuel;
    cbn [fill_loop];
    destruct (length buf <=? off) eqn:Hle; try (by eexists);
    apply Nat.leb_gt in Hle; [lia|].
  destruct src as [|[bs|e] rest]; cbn [read]; try (by eexists).
  destruct (take (length buf - off) bs) as [|b got] eqn:Htake;
    [by eexists|].
  pose proof (length_take bs (length buf - off)) as Hgot.
  rewrite Htake in Hgot. simpl in Hgot.
  apply IH; rewrite write_length; simpl; lia.
Qed.

Lemma read_exact_or_eof_total src buf :
  is_Some (read_exact_or_eof src buf).
Proof.
  unfold read_exact_or_eof.
  destruct (fill_loop_total (length buf) src buf 0) as [st ->]; [lia..|].
  by eexists.
Qed.


(** *** The contract *)

(** C1: the call fails with the unexpected-end-of-input error exactly when
    the source hands over k bytes, 0 < k < N, in non-empty runs and then
    reports end-of-stream; in particular such a source never gives a
    silent short read. *)
Theorem unexpected_eof_iff src buf :
  (∃ o, read_exact_or_eof src buf = Some o
        ∧ out_result o = Err UnexpectedEof)
  ↔ (∃ chunks tail,
        src = runs chunks tail ∧ Forall nonempty chunks
        ∧ 0 < length (concat chunks) < length buf
        ∧ at_eof tail = true).
Proof.
  unfold read_exact_or_eof. split.
  - intros (o & Hrun & Hres).
    destruct (fill_loop (length buf) src buf 0) as [st|] eqn:Hloop;
      [|discriminate].
    injection Hrun as <-.
    apply fill_loop_sound in Hloop as [Hbuf Hexit]; [|lia].
    unfold conclude in Hres. cbn [out_result] in Hres. rewrite Hbuf in Hres.
    destruct (ls_exit st); [| |discriminate];
      destruct (ls_off st =? 0) eqn:Hzero; try discriminate;
      destruct (ls_off st <? length buf) eqn:Hshort; try discriminate;
      apply Nat.eqb_neq in Hzero; apply Nat.ltb_lt in Hshort; [lia|].
    destruct Hexit as [_ (chunks & tail & Hsrc & Hne & Hoff & Heof)].
    exists chunks, tail. repeat split; [done | done | lia | lia | done].
  - intros (chunks & tail & -> & Hne & [Hpos Hshort] & Heof).
    pose proof (chunks_length chunks Hne) as Hlen.
    rewrite fill_loop_prefix by (done || lia).
    destruct (length buf - length chunks) as [|fuel] eqn:Hfuel; [lia|].
    rewrite fill_loop_eof by (done || rewrite write_length; simpl; lia).
    eexists. split; [reflexivity|].
    unfold conclude. cbn [out_result ls_exit ls_off ls_buf].
    rewrite write_length by (simpl; lia).
    destruct (length (concat chunks) =? 0) eqn:Hzero;
      [apply Nat.eqb_eq in Hzero; lia|].
    destruct (length (concat chunks) <? length buf) eqn:Hlt;
      [reflexivity | apply Nat.ltb_ge in Hlt; lia].
Qed.

(** C2: on a buffer of length N > 0, a source that is at end-of-stream
    before any byte was read gives success with zero bytes filled; the
    buffer is left as it was. *)
Theorem immediate_eof_is_success src buf :
  0 < length buf → at_eof src = true →
  read_exact_or_eof src buf = Some (Outcome (Ok 0) buf (drop 1 src)).
Proof.
  intros Hpos Heof. unfold read_exact_or_eof.
  destruct (length buf) as [|fuel] eqn:Hlen; [lia|].
  rewrite fill_loop_eof by (done || lia). reflexivity.
Qed.

(** C3: a lower-level failure [e] met at any offset k < N (after k bytes
    were taken) comes out at once and unchanged as [Io e]: nothing behind
    the failure is read, and the result is neither a success nor the
    unexpected end of input. *)
Theorem io_error_propagates chunks e rest buf :
  Forall nonempty chunks →
  length (concat chunks) < length buf →
  read_exact_or_eof (runs chunks (Fail e :: rest)) buf
  = Some (Outcome (Err (Io e)) (write buf 0 (concat chunks)) rest).
Proof.
  intros Hne Hshort. unfold read_exact_or_eof.
  pose proof (chunks_length chunks Hne) as Hlen.
  rewrite fill_loop_prefix by (done || lia).
  destruct (length buf - length chunks) as [|fuel] eqn:Hfuel; [lia|].
  rewrite fill_loop_fail by (rewrite write_length; simpl; lia).
  reflexivity.
Qed.

(** C4: for N > 0, a source that hands over exactly N bytes fills the
    whole buffer with them, the call succeeds with N bytes filled, and the
    source is left right behind those N bytes. *)
Theorem full_read_is_success chunks rest buf :
  0 < length buf →
  Forall nonempty chunks →
  length (concat chunks) = length buf →
  read_exact_or_eof (runs chunks rest) buf
  = Some (Outcome (Ok (length buf)) (concat chunks) rest).
Proof.
  intros Hpos Hne Hall. unfold read_exact_or_eof.
  rewrite fill_loop_prefix by (done || lia).
  rewrite fill_loop_full by (rewrite write_length; simpl; lia).
  unfold conclude. cbn [out_result ls_exit ls_off ls_buf ls_src fmap option_fmap option_map].
  rewrite write_all by done. rewrite Hall.
  destruct (length buf =? 0) eqn:Hzero; [apply Nat.eqb_eq in Hzero; lia|].
  rewrite Nat.ltb_irrefl. reflexivity.
Qed.

End Facts.


(** *** The contract at concrete sources *)

Import Byte.

Lemma immediate_eof_is_success_witness :
  0 < length [x00; x00; x00] ∧ at_eof (E:=nat) [] = true
  ∧ read_exact_or_eof (E:=nat) [] [x00; x00; x00]
    = Some (Outcome (Ok 0) [x00; x00; x00] []).
Proof.
  split; [simpl; lia|]. split; [reflexivity|].
  apply (immediate_eof_is_success (E:=nat) [] [x00; x00; x00]);
    [simpl; lia | reflexivity].
Defined.

Lemma io_error_propagates_witness :
  read_exact_or_eof (runs [[x61]; [x62; x63]] [Fail 5; Data [x64]])
    [x00; x00; x00; x00]
  = Some (Outcome (Err (Io 5)) [x61; x62; x63; x00] [Data [x64]]).
Proof.
  apply (io_error_propagates [[x61]; [x62; x63]] 5 [Data [x64]]
           [x00; x00; x00; x00]).
  - repeat constructor; discriminate.
  - simpl; lia.
Defined.

Lemma full_read_is_success_witness :
  read_exact_or_eof (E:=nat) (runs [[x61]; [x62; x63]] [Data [x64]])
    [x00; x00; x00]
  = Some (Outcome (Ok 3) [x61; x62; x63] [Data [x64]]).
Proof.
  apply (full_read_is_success (E:=nat) [[x61]; [x62; x63]] [Data [x64]]
           [x00; x00; x00]).
  - simpl; lia.
  - repeat constructor; discriminate.
  - reflexivity.
Defined.

(** A short read, and a run longer than the buffer. *)
Example short_read_is_error :
  read_exact_or_eof (E:=nat) [Data [x61; x62]] [x00; x00; x00]
  = Some (Outcome (Err UnexpectedEof) [x61; x62; x00] []).
Proof. reflexivity. Qed.

Example long_run_is_cut :
  read_exact_or_eof (E:=nat) [Data [x61; x62; x63]] [x00; x00]
  = Some (Outcome (Ok 2) [x61; x62] [Data [x63]]).
Proof. reflexivity. Qed.

End ReadExactSpec.

(* ===================================================================== *)
(** ** Properties of the search index                                     *)
(* ===================================================================== *)

Module SearchIndexSpec.

Import SearchIndex.

Implicit Type host : string → list value → heap → host_result.

(** *** Property update keeps keys unique *)

Lemma keys_set_prop {V} (ps : list (string * V)) k v :
  keys (set_prop ps k v)
  = if bool_decide (k ∈ keys ps) then keys ps else keys ps ++ [k].
Proof.
  induction ps as [|[k' v'] ps IH]; [reflexivity|]. cbn [set_prop].
  destruct (String.eqb k' k) eqn:Hk.
  - apply String.eqb_eq in Hk as ->.
    rewrite bool_decide_eq_true_2 by (simpl; left). reflexivity.
  - apply String.eqb_neq in Hk. unfold keys in *. cbn [fmap list_fmap fst].
    fold (@fmap list _ _ _ (@fst string V) (set_prop ps k v)).
    rewrite IH.
    destruct (decide (k ∈ fst <$> ps)) as [Hin|Hout].
    + rewrite !bool_decide_eq_true_2 by (done || by right). reflexivity.
    + rewrite !bool_decide_eq_false_2; [reflexivity | | done].
      intros [?|?]%elem_of_cons; congruence.
Qed.

Lemma set_prop_NoDup {V} (ps : list (string * V)) k v :
  NoDup (keys ps) → NoDup (keys (set_prop ps k v)).
Proof.
  intros Hps. rewrite keys_set_prop. case_bool_decide as Hin; [done|].
  apply NoDup_app. repeat split; [done | | apply NoDup_singleton].
  intros x Hx ->%list_elem_of_singleton. done.
Qed.

(** *** Running the script *)

(** Building the table involves no host function. *)
Lemma built_host_free host : built host = built idle_host.
Proof. vm_compute. reflexivity. Qed.

Lemma construction_run host :
  exec_all host construction initial = (built host, Normal tt).
Proof. vm_compute. reflexivity. Qed.

(** The whole run, in terms of what [initSearch] does. *)
Lemma program_run host :
  exec_all host program initial
  = let before := built host in
    let ev := Call "initSearch" [VRef 0] (st_heap before) in
    match host "initSearch" [VRef 0] (st_heap before) with
    | HReturn _ h' => (State h' (st_env before) [ev], Normal tt)
    | HThrow e h' => (State h' (st_env before) [ev], Throw e)
    end.
Proof.
  vm_compute. destruct (host _ _ _); reflexivity.
Qed.

(** The consumer receives the same table whatever it does with it. *)
Lemma passed_table_host_free host :
  passed_table host = passed_table idle_host.
Proof.
  unfold passed_table. rewrite program_run. cbv zeta.
  destruct (host _ _ _); vm_compute; reflexivity.
Qed.

Lemma documents_host_free host : documents host = documents idle_host.
Proof. unfold documents. rewrite passed_table_host_free. reflexivity. Qed.


(** *** The table *)

(** C5: the table handed to the consumer is an object whose keys are crate
    names, none of them twice; here it has the one key "read_exact", and
    what it maps to is a document object: exactly the fields [doc], a
    string, [items], the list of the two item descriptors, and [paths],
    the list of the one paths entry. *)
Theorem index_single_crate host :
  ∃ ps, passed_table host = Some (TObj ps)
        ∧ NoDup (keys ps)
        ∧ keys ps = ["read_exact"%string]
        ∧ Forall (fun kv => is_obj kv.2 = true) ps
        ∧ Forall (fun kv =>
                    ∃ doc items paths,
                      kv.2 = TObj [("doc"%string, TStr doc);
                                   ("items"%string, TArr items);
                                   ("paths"%string, TArr paths)]
                      ∧ Forall (fun item => item_shape item = true) items
                      ∧ length items = 2%nat
                      ∧ Forall (fun entry => path_shape entry = true) paths
                      ∧ length paths = 1%nat)
            ps.
Proof.
  rewrite passed_table_host_free. eexists.
  split; [vm_compute; reflexivity|].
  split; [apply NoDup_singleton|].
  split; [reflexivity|].
  split; [repeat constructor|].
  constructor; [|constructor].
  eexists _, _, _. split; [reflexivity|].
  split; [repeat constructor|].
  split; [reflexivity|].
  split; [repeat constructor | reflexivity].
Qed.

(** C6, as the interface text has it: every item is a six-field tuple
    whose fifth field is a number.  The trait's item has [null] there. *)
Lemma item_as_described_fails :
  ¬ Forall (fun kv =>
              Forall (fun item => item_as_described item = true)
                (items_of kv.2))
      (documents idle_host).
Proof.
  intros Hall. vm_compute in Hall.
  apply Forall_cons in Hall as [Hitems _].
  apply Forall_cons in Hitems as [Htrait _].
  discriminate Htrait.
Qed.

(** C6, amended: every item of every document is a tuple of exactly six
    fields, in order a kind code (a number), a name, a namespace and a doc
    string (strings), a cross-reference that is a number or [null], and a
    last reference that may be [null]; the one document has two items. *)
Theorem item_six_fields host :
  Forall (fun kv =>
            Forall (fun item => item_shape item = true) (items_of kv.2))
    (documents host)
  ∧ (fun kv => length (items_of kv.2)) <$> documents host = [2%nat].
Proof.
  rewrite documents_host_free. split.
  - vm_compute. repeat constructor.
  - vm_compute. reflexivity.
Qed.

(** C7: every document object has exactly the fields [doc], a string,
    [items], a list of item descriptors, and [paths], a list; the items
    keep the order they are written in, the trait "ReadExactExt" before
    the method "read_exact_or_eof". *)
Theorem document_fields host :
  Forall (fun kv =>
            ∃ doc items paths,
              kv.2 = TObj [("doc"%string, TStr doc);
                           ("items"%string, TArr items);
                           ("paths"%string, TArr paths)]
              ∧ Forall (fun item => item_shape item = true) items
              ∧ item_names kv.2
                = [TStr "ReadExactExt"; TStr "read_exact_or_eof"])
    (documents host)
  ∧ length (documents host) = 1%nat.
Proof.
  rewrite documents_host_free. split; [|vm_compute; reflexivity].
  vm_compute. constructor; [|constructor].
  eexists _, _, _. split; [reflexivity|].
  split; [repeat constructor | reflexivity].
Qed.

(** C8: every reference of every item that is not [null] is a number that
    indexes the paths list of the same document; every item carries its
    two reference fields, and one of them is such an index (0). *)
Theorem references_point_into_paths host :
  Forall (fun kv =>
            Forall (fun item =>
                      length (refs_of item) = 2%nat
                      ∧ Forall (fun r => ref_in (paths_of kv.2) r = true)
                          (refs_of item))
              (items_of kv.2))
    (documents host)
  ∧ (∃ kv item, kv ∈ documents host ∧ item ∈ items_of kv.2
                ∧ TNum 0 ∈ refs_of item).
Proof.
  rewrite documents_host_free. split.
  - vm_compute. repeat constructor.
  - eexists (_, _), (TArr [_; _; _; _; TNum 0; _]).
    split; [vm_compute; left|].
    split; [vm_compute; right; left | vm_compute; left].
Qed.

(** C9: the script builds the table without calling out, binds it to
    [searchIndex], and ends with the call [initSearch(searchIndex)]: the
    run makes that one call, with the table as its argument; whatever the
    call returns is dropped, the heap it leaves is the heap the run ends
    with, and what it throws is what the run throws. *)
Theorem table_built_once_then_handed_over host :
  program = construction ++ [init_call]
  ∧ exec_all host construction initial = (built host, Normal tt)
  ∧ st_trace (built host) = []
  ∧ get_prop (st_env (built host)) "searchIndex" = Some (VRef 0)
  ∧ snapshot table_depth (st_heap (built host)) (VRef 0)
    = passed_table host
  ∧ exec_all host program initial
    = match host "initSearch" [VRef 0] (st_heap (built host)) with
      | HReturn _ h' =>
          (State h' (st_env (built host))
             [Call "initSearch" [VRef 0] (st_heap (built host))],
           Normal tt)
      | HThrow e h' =>
          (State h' (st_env (built host))
             [Call "initSearch" [VRef 0] (st_heap (built host))],
           Throw e)
      end.
Proof.
  split; [reflexivity|].
  split; [apply construction_run|].
  split; [vm_compute; reflexivity|].
  split; [vm_compute; reflexivity|].
  split; [rewrite passed_table_host_free; vm_compute; reflexivity|].
  apply program_run.
Qed.

(** C10: every paths entry is a pair of a kind code (a number) and a name
    (a string); of the two items only the method "read_exact_or_eof"
    carries a reference, 0, and the paths entry it indexes has the kind
    code 8 and the name "ReadExactExt" of the trait's item. *)
Theorem items_and_paths_agree host :
  ∃ d trait method target,
    documents host = [("read_exact"%string, d)]
    ∧ paths_of d = [target]
    ∧ path_shape target = true
    ∧ items_of d = [trait; method]
    ∧ referring_items d = [method]
    ∧ field method 1 = Some (TStr "read_exact_or_eof")
    ∧ refs_of method = [TNum 0; TNull]
    ∧ targets (paths_of d) method = [target]
    ∧ kind_and_name target = Some (TNum 8, TStr "ReadExactExt")
    ∧ kind_and_name trait = kind_and_name target.
Proof.
  rewrite documents_host_free.
  eexists _, _, _, _.
  split; [vm_compute; reflexivity|].
  repeat split; vm_compute; reflexivity.
Qed.

End SearchIndexSpec.

(* ===================================================================== *)
(** ** Properties of evaluation, from any state                           *)
(* ===================================================================== *)

Module EvaluationSpec.

Import SearchIndex SearchIndexSpec.

Implicit Type host : string → list value → heap → host_result.

(** *** Unfolding [eval] *)

Lemma eval_array host es :
  eval host (EArray es)
  = let* l := alloc (Array []) in
    run eval_elems host l es in ret (VRef l).
Proof. reflexivity. Qed.

Lemma eval_object host ps :
  eval host (EObject ps)
  = let* l := alloc (Object []) in
    run eval_props host l ps in ret (VRef l).
Proof. reflexivity. Qed.

Lemma eval_call host f args :
  eval host (ECall f args)
  = let* vs := eval_args host args in call host f vs.
Proof. reflexivity. Qed.

(** Induction over expressions, through the lists they contain. *)
Lemma expr_nested_ind (P : expr → Prop) :
  P ENull → (∀ n, P (ENum n)) → (∀ s, P (EStr s)) → (∀ x, P (EVar x)) →
  (∀ es, Forall P es → P (EArray es)) →
  (∀ ps, Forall (fun kv => P kv.2) ps → P (EObject ps)) →
  (∀ f args, Forall P args → P (ECall f args)) →
  ∀ e, P e.
Proof.
  intros Hnull Hnum Hstr Hvar Harr Hobj Hcall.
  fix IH 1. intros [| n | s | x | es | ps | f args].
  - exact Hnull.
  - apply Hnum.
  - apply Hstr.
  - apply Hvar.
  - apply Harr. induction es as [|e es IHes]; constructor;
      [apply IH | exact IHes].
  - apply Hobj. induction ps as [|[k e] ps IHps]; constructor;
      [apply IH | exact IHps].
  - apply Hcall. induction args as [|e es IHes]; constructor;
      [apply IH | exact IHes].
Qed.

(** *** Lookup in an association list after an update *)

Lemma get_set_eq {V} (ps : list (string * V)) k v :
  get_prop (set_prop ps k v) k = Some v.
Proof.
  induction ps as [|[k' v'] ps IH]; cbn [set_prop get_prop].
  - rewrite String.eqb_refl. reflexivity.
  - destruct (String.eqb k' k) eqn:Hk; cbn [get_prop]; rewrite Hk; done.
Qed.

Lemma get_set_ne {V} (ps : list (string * V)) k k' v :
  k ≠ k' → get_prop (set_prop ps k v) k' = get_prop ps k'.
Proof.
  intros Hne. induction ps as [|[k0 v0] ps IH]; cbn [set_prop get_prop].
  - rewrite (proj2 (String.eqb_neq k k')) by done. reflexivity.
  - destruct (String.eqb k0 k) eqn:Hk; cbn [get_prop].
    + apply String.eqb_eq in Hk as ->.
      rewrite (proj2 (String.eqb_neq k k')) by done. reflexivity.
    + rewrite IH. reflexivity.
Qed.



(** *** No object gets a key twice *)

Local Abbreviation keeps m :=
  (∀ st, heap_keys_unique (st_heap st) → heap_keys_unique (st_heap (m st).1)).

Lemma keeps_bind {A B} (m : M A) (k : A → M B) :
  keeps m → (∀ a, keeps (k a)) → keeps (bind m k).
Proof.
  intros Hm Hk st Hst. unfold bind. specialize (Hm st Hst).
  destruct (m st) as [st' [a | v |]]; [by apply Hk | done | done].
Qed.

Lemma keeps_ret {A} (a : A) : keeps (ret a).
Proof. done. Qed.

Lemma keeps_alloc c : keys_unique c → keeps (alloc c).
Proof.
  intros Hc st Hst. cbn. apply Forall_app. split; [done|].
  by constructor.
Qed.

Lemma keeps_put l k v : keeps (put l k v).
Proof.
  intros st Hst. unfold put.
  destruct (st_heap st !! l) as [[ps|vs]|] eqn:Hl; [|done..].
  cbn. apply Forall_insert; [done|].
  apply set_prop_NoDup.
  exact (Forall_lookup_1 _ _ _ _ Hst Hl).
Qed.

Lemma keeps_push l v : keeps (push l v).
Proof.
  intros st Hst. unfold push.
  destruct (st_heap st !! l) as [[ps|vs]|] eqn:Hl; [done| |done].
  cbn. by apply Forall_insert.
Qed.

Lemma keeps_get_var x : keeps (get_var x).
Proof.
  intros st Hst. unfold get_var. by destruct (get_prop (st_env st) x).
Qed.

Lemma keeps_call host f args :
  (∀ g vs h, heap_keys_unique h → heap_keys_unique (host_heap (host g vs h))) →
  keeps (call host f args).
Proof.
  intros Hhost st Hst. unfold call.
  destruct (get_prop (st_env st) f); [done|].
  specialize (Hhost f args (st_heap st) Hst).
  by destruct (host f args (st_heap st)).
Qed.

Lemma keeps_eval host e :
  (∀ g vs h, heap_keys_unique h → heap_keys_unique (host_heap (host g vs h))) →
  keeps (eval host e).
Proof.
  intros Hhost. induction e as [| n | s | x | es IH | ps IH | f args IH]
    using expr_nested_ind; try done.
  - apply keeps_get_var.
  - rewrite eval_array. apply keeps_bind; [by apply keeps_alloc|].
    intros l. apply keeps_bind; [|done].
    induction IH as [|e es He _ IHes]; [done|]. cbn [eval_elems].
    apply keeps_bind; [exact He|]. intros v.
    apply keeps_bind; [apply keeps_push | intros _; exact IHes].
  - rewrite eval_object.
    apply keeps_bind; [apply keeps_alloc; constructor|].
    intros l. apply keeps_bind; [|done].
    induction IH as [|[k e] ps He _ IHps]; [done|]. cbn [eval_props].
    apply keeps_bind; [exact He|]. intros v.
    apply keeps_bind; [apply keeps_put | intros _; exact IHps].
  - rewrite eval_call. apply keeps_bind; [|intros vs; by apply keeps_call].
    induction IH as [|e es He _ IHes]; [done|]. cbn [eval_args].
    apply keeps_bind; [exact He|]. intros v.
    apply keeps_bind; [exact IHes | done].
Qed.

Lemma keeps_exec host s :
  (∀ g vs h, heap_keys_unique h → heap_keys_unique (host_heap (host g vs h))) →
  keeps (exec host s).
Proof.
  intros Hhost. destruct s as [x init | o k rhs | e]; cbn [exec].
  - apply keeps_bind; [by apply keeps_eval | done].
  - apply keeps_bind; [by apply keeps_eval|]. intros ov.
    apply keeps_bind; [by apply keeps_eval|]. intros kv.
    apply keeps_bind; [by apply keeps_eval|]. intros rv.
    destruct ov, kv; try done; apply keeps_put.
  - apply keeps_bind; [by apply keeps_eval | done].
Qed.

(** X4: a run of any statements of this subset, from a heap in which no
    object has a key twice, ends with such a heap, as long as the host's
    functions hand back such heaps. *)
Theorem run_keeps_keys_unique host ss st :
  (∀ g vs h, heap_keys_unique h → heap_keys_unique (host_heap (host g vs h))) →
  heap_keys_unique (st_heap st) →
  heap_keys_unique (st_heap (exec_all host ss st).1).
Proof.
  intros Hhost. revert st.
  induction ss as [|s ss IH]; [done|]. cbn [exec_all].
  apply keeps_bind; [by apply keeps_exec | intros _; exact IH].
Qed.

Lemma run_keeps_keys_unique_witness :
  heap_keys_unique (st_heap (exec_all idle_host program initial).1).
Proof.
  apply (run_keeps_keys_unique idle_host program initial).
  - intros g vs h Hh. exact Hh.
  - constructor.
Defined.


(** *** A literal only adds cells *)

Lemma push_at h vs more env tr v :
  push (length h) v (State (h ++ Array vs :: more) env tr)
  = (State (h ++ Array (vs ++ [v]) :: more) env tr, Normal tt).
Proof.
  unfold push, heap. cbn [st_heap st_env st_trace].
  rewrite list_lookup_middle by done.
  rewrite insert_app_r_alt, Nat.sub_diag by done. reflexivity.
Qed.

Lemma put_at h ps more env tr k v :
  put (length h) k v (State (h ++ Object ps :: more) env tr)
  = (State (h ++ Object (set_prop ps k v) :: more) env tr, Normal tt).
Proof.
  unfold put, heap. cbn [st_heap st_env st_trace].
  rewrite list_lookup_middle by done.
  rewrite insert_app_r_alt, Nat.sub_diag by done. reflexivity.
Qed.

Lemma bind_normal {A B} (m : M A) (k : A → M B) st st' a :
  m st = (st', Normal a) → bind m k st = k a st'.
Proof. intros Hm. unfold bind. rewrite Hm. reflexivity. Qed.

Local Abbreviation adds_cells host e :=
  (∀ h env tr, ∃ new v,
     eval host e (State h env tr) = (State (h ++ new) env tr, Normal v)).

Lemma elems_fill host es :
  Forall (fun e => adds_cells host e) es →
  ∀ h vs more env tr, ∃ vs' more',
    eval_elems host (length h) es (State (h ++ Array vs :: more) env tr)
    = (State (h ++ Array vs' :: more') env tr, Normal tt).
Proof.
  induction 1 as [|e es He _ IH]; intros h vs more env tr.
  - by exists vs, more.
  - cbn [eval_elems].
    destruct (He (h ++ Array vs :: more) env tr) as (new & v & Hev).
    rewrite (bind_normal _ _ _ _ _ Hev).
    rewrite <- app_assoc, <- app_comm_cons.
    rewrite (bind_normal _ _ _ _ _ (push_at _ _ _ _ _ _)).
    apply IH.
Qed.

Lemma props_fill host ps :
  Forall (fun kv => adds_cells host kv.2) ps →
  ∀ h qs more env tr, ∃ qs' more',
    eval_props host (length h) ps (State (h ++ Object qs :: more) env tr)
    = (State (h ++ Object qs' :: more') env tr, Normal tt).
Proof.
  induction 1 as [|[k e] ps He _ IH]; intros h qs more env tr.
  - by exists qs, more.
  - cbn [eval_props].
    destruct (He (h ++ Object qs :: more) env tr) as (new & v & Hev).
    rewrite (bind_normal _ _ _ _ _ Hev).
    rewrite <- app_assoc, <- app_comm_cons.
    rewrite (bind_normal _ _ _ _ _ (put_at _ _ _ _ _ _ _)).
    apply IH.
Qed.

(** X1: evaluating a data literal (no variable, no call) never fails and
    only adds cells at the end of the heap: every cell that was there is
    still there unchanged, and so are the variables and the record of
    calls. *)
Theorem literal_only_adds_cells host e st :
  literal e = true →
  ∃ new v,
    eval host e st
    = (State (st_heap st ++ new) (st_env st) (st_trace st), Normal v).
Proof.
  intros Hlit. destruct st as [h env tr]. cbn [st_heap st_env st_trace].
  revert Hlit h env tr.
  induction e as [| n | s | x | es IH | ps IH | f args IH]
    using expr_nested_ind; intros Hlit h env tr; try discriminate.
  - exists [], VNull. by rewrite app_nil_r.
  - exists [], (VNum n). by rewrite app_nil_r.
  - exists [], (VStr s). by rewrite app_nil_r.
  - assert (Hes : Forall (fun e => adds_cells host e) es).
    { cbn [literal] in Hlit. rewrite forallb_forall in Hlit.
      apply Forall_forall. intros e He.
      rewrite Forall_forall in IH.
      apply IH; [done|]. apply Hlit, list_elem_of_In, He. }
    destruct (elems_fill host es Hes h [] [] env tr) as (vs & more & Hrun).
    rewrite eval_array.
    rewrite (bind_normal _ _ (State h env tr)
               (State (h ++ [Array []]) env tr) (length h)) by reflexivity.
    rewrite (bind_normal _ _ _ _ _ Hrun).
    by exists (Array vs :: more), (VRef (length h)).
  - assert (Hps : Forall (fun kv => adds_cells host kv.2) ps).
    { cbn [literal] in Hlit. rewrite forallb_forall in Hlit.
      apply Forall_forall. intros [k e] He.
      rewrite Forall_forall in IH.
      apply (IH (k, e)); [done|].
      apply (Hlit (k, e)), list_elem_of_In, He. }
    destruct (props_fill host ps Hps h [] [] env tr) as (qs & more & Hrun).
    rewrite eval_object.
    rewrite (bind_normal _ _ (State h env tr)
               (State (h ++ [Object []]) env tr) (length h)) by reflexivity.
    rewrite (bind_normal _ _ _ _ _ Hrun).
    by exists (Object qs :: more), (VRef (length h)).
Qed.

Lemma literal_only_adds_cells_witness :
  ∃ new v,
    eval idle_host crate_literal (State [Array []] [] [])
    = (State ([Array []] ++ new) [] [], Normal v).
Proof.
  apply (literal_only_adds_cells idle_host crate_literal
           (State [Array []] [] [])).
  reflexivity.
Defined.


(** *** The same literal further down the heap *)

Lemma relocates_bind {A B} h0 (m m' : M A) (k k' : A → M B) f g :
  relocates h0 m m' f → (∀ a, relocates h0 (k a) (k' (f a)) g) →
  relocates h0 (bind m k) (bind m' k') g.
Proof.
  intros Hm Hk st. unfold bind at 1. rewrite (Hm st). unfold bind.
  destruct (m st) as [st' [a | v |]]; cbn [fst snd relocate_result];
    [apply Hk | reflexivity..].
Qed.

Lemma relocates_alloc h0 c :
  relocates h0 (alloc c) (alloc (shift_cell (length h0) c))
    (fun l => (length h0 + l)%nat).
Proof.
  intros [h env tr]. unfold alloc, relocate.
  cbn [st_heap st_env st_trace fst snd relocate_result].
  rewrite fmap_app, app_assoc, length_app, length_fmap. reflexivity.
Qed.

Lemma relocate_lookup h0 (h : heap) l :
  (h0 ++ (shift_cell (length h0) <$> h)) !! (length h0 + l)%nat
  = shift_cell (length h0) <$> h !! l.
Proof.
  unfold heap in *. rewrite lookup_app_r by lia.
  replace (length h0 + l - length h0)%nat with l by lia.
  apply list_lookup_fmap.
Qed.

Lemma relocate_insert h0 (h : heap) l c :
  <[(length h0 + l)%nat := shift_cell (length h0) c]>
    (h0 ++ (shift_cell (length h0) <$> h))
  = h0 ++ (shift_cell (length h0) <$> <[l := c]> h).
Proof.
  unfold heap in *. rewrite insert_app_r, list_fmap_insert. reflexivity.
Qed.

Lemma relocates_push h0 l v :
  relocates h0 (push l v)
    (push (length h0 + l) (shift (length h0) v)) id.
Proof.
  intros [h env tr]. unfold push, relocate.
  cbn [st_heap st_env st_trace].
  rewrite relocate_lookup.
  destruct (h !! l) as [[ps|vs]|]; cbn [fmap option_fmap option_map shift_cell];
    try reflexivity.
  cbn [fst snd relocate_result st_heap st_env st_trace].
  rewrite <- relocate_insert. cbn [shift_cell].
  rewrite fmap_app. reflexivity.
Qed.

Lemma shift_set_prop n (ps : list (string * value)) k v :
  (fun kv => (kv.1, shift n kv.2)) <$> set_prop ps k v
  = set_prop ((fun kv => (kv.1, shift n kv.2)) <$> ps) k (shift n v).
Proof.
  induction ps as [|[k' v'] ps IH]; [reflexivity|].
  cbn [set_prop fmap list_fmap fst snd].
  destruct (String.eqb k' k); cbn [fmap list_fmap fst snd];
    [reflexivity|].
  f_equal. exact IH.
Qed.

Lemma relocates_put h0 l k v :
  relocates h0 (put l k v)
    (put (length h0 + l) k (shift (length h0) v)) id.
Proof.
  intros [h env tr]. unfold put, relocate.
  cbn [st_heap st_env st_trace].
  rewrite relocate_lookup.
  destruct (h !! l) as [[ps|vs]|]; cbn [fmap option_fmap option_map shift_cell];
    try reflexivity.
  cbn [fst snd relocate_result st_heap st_env st_trace].
  rewrite <- relocate_insert. cbn [shift_cell].
  rewrite shift_set_prop. reflexivity.
Qed.

Lemma relocates_ret {A} h0 (a : A) f : relocates h0 (ret a) (ret (f a)) f.
Proof. intros st. reflexivity. Qed.

Lemma literal_relocates host h0 e :
  literal e = true →
  relocates h0 (eval host e) (eval host e) (shift (length h0)).
Proof.
  induction e as [| n | s | x | es IH | ps IH | f args IH]
    using expr_nested_ind; intros Hlit; try discriminate.
  - intros st. reflexivity.
  - intros st. reflexivity.
  - intros st. reflexivity.
  - cbn [literal] in Hlit. rewrite forallb_forall in Hlit.
    rewrite eval_array.
    apply (relocates_bind h0 _ _ _ _ _ _ (relocates_alloc h0 (Array []))).
    intros l.
    apply (relocates_bind h0 _ _ _ _ id);
      [|intros _; apply (relocates_ret h0 (VRef l) (shift (length h0)))].
    induction IH as [|e es He _ IHes]; [intros st; reflexivity|].
    cbn [eval_elems].
    apply (relocates_bind h0 _ _ _ _ (shift (length h0)));
      [apply He, Hlit; by left|].
    intros v. apply (relocates_bind h0 _ _ _ _ id);
      [apply relocates_push|].
    intros _. apply IHes. intros e' He'. apply Hlit. by right.
  - cbn [literal] in Hlit. rewrite forallb_forall in Hlit.
    rewrite eval_object.
    apply (relocates_bind h0 _ _ _ _ _ _ (relocates_alloc h0 (Object []))).
    intros l.
    apply (relocates_bind h0 _ _ _ _ id);
      [|intros _; apply (relocates_ret h0 (VRef l) (shift (length h0)))].
    induction IH as [|[k e] ps He _ IHps]; [intros st; reflexivity|].
    cbn [eval_props].
    apply (relocates_bind h0 _ _ _ _ (shift (length h0)));
      [apply He, (Hlit (k, e)); by left|].
    intros v. apply (relocates_bind h0 _ _ _ _ id);
      [apply relocates_put|].
    intros _. apply IHps. intros e' He'. apply Hlit. by right.
Qed.

(** Reading a value back does not depend on where its cells lie. *)
Lemma snapshot_relocate h0 (h : heap) depth : ∀ v,
  snapshot depth (h0 ++ (shift_cell (length h0) <$> h)) (shift (length h0) v)
  = snapshot depth h v.
Proof.
  induction depth as [|depth IH]; intros v; [reflexivity|].
  destruct v as [| | n | s | l]; try reflexivity.
  cbn [shift snapshot]. rewrite relocate_lookup.
  destruct (h !! l) as [[ps|vs]|];
    cbn [fmap option_fmap option_map shift_cell]; [| |reflexivity].
  - f_equal. induction ps as [|[k v] ps IHps]; [reflexivity|].
    cbn [fmap list_fmap mapM fst snd]. cbn [fmap list_fmap] in IHps.
    rewrite IH, IHps. reflexivity.
  - f_equal. induction vs as [|v vs IHvs]; [reflexivity|].
    cbn [fmap list_fmap mapM]. cbn [fmap list_fmap] in IHvs.
    rewrite IH, IHvs. reflexivity.
Qed.


(** *** The script, started anywhere *)

Lemma get_var_bound x v st :
  get_prop (st_env st) x = Some v → get_var x st = (st, Normal v).
Proof. intros Hx. unfold get_var. rewrite Hx. reflexivity. Qed.

Lemma put_relocated h0 k v st :
  put (length h0) k (shift (length h0) v) (relocate h0 st)
  = (relocate h0 (put 0 k v st).1,
     relocate_result (length h0) id (put 0 k v st).2).
Proof.
  pose proof (relocates_put h0 0 k v st) as Hput.
  rewrite Nat.add_0_r in Hput. exact Hput.
Qed.

(** The literal of the second statement, evaluated over the empty table,
    and the assignment that follows it. *)
Lemma crate_literal_run host env tr :
  ∃ cells,
    eval host crate_literal (State [Object []] env tr)
    = (State cells env tr, Normal (VRef 1))
    ∧ put 0 "read_exact" (VRef 1) (State cells env tr)
      = (State (st_heap (built idle_host)) env tr, Normal tt).
Proof. eexists. split; vm_compute; reflexivity. Qed.

Lemma declare_table_run host h0 env0 tr0 :
  exec host declare_table (State h0 env0 tr0)
  = (State (h0 ++ [Object []])
       (set_prop env0 "searchIndex" (VRef (length h0))) tr0, Normal tt).
Proof. reflexivity. Qed.

Lemma assign_crate_run host h0 env tr :
  get_prop env "searchIndex" = Some (VRef (length h0)) →
  exec host assign_crate (State (h0 ++ [Object []]) env tr)
  = (State (h0 ++ (shift_cell (length h0) <$> st_heap (built idle_host)))
       env tr, Normal tt).
Proof.
  intros Hvar. unfold assign_crate. cbn [exec].
  rewrite (bind_normal _ _ _ _ _
             (get_var_bound "searchIndex" _ (State _ env tr) Hvar)).
  rewrite (bind_normal _ _ (State (h0 ++ [Object []]) env tr)
             (State (h0 ++ [Object []]) env tr) (VStr "read_exact"))
    by reflexivity.
  destruct (crate_literal_run host env tr) as (cells & Hlit & Hput).
  change (State (h0 ++ [Object []]) env tr)
    with (relocate h0 (State [Object []] env tr)).
  unfold bind.
  rewrite (literal_relocates host h0 crate_literal eq_refl), Hlit.
  cbn [fst snd relocate_result].
  rewrite (put_relocated h0 "read_exact" (VRef 1)), Hput.
  reflexivity.
Qed.

Lemma init_call_run host h env tr l :
  get_prop env "searchIndex" = Some (VRef l) →
  get_prop env "initSearch" = None →
  exec host init_call (State h env tr)
  = match host "initSearch" [VRef l] h with
    | HReturn _ h' =>
        (State h' env (tr ++ [Call "initSearch" [VRef l] h]), Normal tt)
    | HThrow e h' =>
        (State h' env (tr ++ [Call "initSearch" [VRef l] h]), Throw e)
    end.
Proof.
  intros Hvar Hfun. unfold init_call. cbn [exec]. rewrite eval_call.
  cbn [eval_args eval].
  unfold bind at 1 2 3.
  rewrite (get_var_bound "searchIndex" _ (State h env tr) Hvar).
  unfold bind, ret, call. cbn [st_env st_heap st_trace]. rewrite Hfun.
  destruct (host _ _ _); reflexivity.
Qed.

(** X2: started in any state whose variables do not include [initSearch]
    (whatever the heap holds and whatever [searchIndex] held before), the
    script leaves every existing cell as it is, puts a new table behind
    them, binds [searchIndex] to it and calls [initSearch] once with that
    same reference; the table read back is the one-crate table of a fresh
    start, and the run completes as the call does. *)
Theorem script_from_any_state host h0 env0 tr0 :
  get_prop env0 "initSearch" = None →
  let table := VRef (length h0) in
  let heap1 := h0 ++ (shift_cell (length h0) <$> st_heap (built idle_host)) in
  let env1 := set_prop env0 "searchIndex" table in
  let ev := Call "initSearch" [table] heap1 in
  exec_all host program (State h0 env0 tr0)
  = match host "initSearch" [table] heap1 with
    | HReturn _ h' => (State h' env1 (tr0 ++ [ev]), Normal tt)
    | HThrow e h' => (State h' env1 (tr0 ++ [ev]), Throw e)
    end
  ∧ snapshot table_depth heap1 table = passed_table idle_host.
Proof.
  intros Hfun. cbv zeta. split.
  - set (env1 := set_prop env0 "searchIndex" (VRef (length h0))).
    assert (Hvar : get_prop env1 "searchIndex" = Some (VRef (length h0)))
      by apply get_set_eq.
    assert (Hfun1 : get_prop env1 "initSearch" = None)
      by (unfold env1; rewrite get_set_ne; done).
    unfold program. cbn [exec_all].
    rewrite (bind_normal _ _ _ _ _ (declare_table_run host h0 env0 tr0)).
    fold env1.
    rewrite (bind_normal _ _ _ _ _ (assign_crate_run host h0 env1 tr0 Hvar)).
    unfold bind at 1.
    rewrite (init_call_run host _ env1 tr0 (length h0) Hvar Hfun1).
    destruct (host _ _ _); reflexivity.
  - replace (VRef (length h0)) with (shift (length h0) (VRef 0))
      by (cbn [shift]; f_equal; lia).
    rewrite snapshot_relocate. vm_compute. reflexivity.
Qed.

Lemma script_from_any_state_witness :
  get_prop [("searchIndex"%string, VRef 0)] "initSearch" = None
  ∧ exec_all idle_host program
      (State [Object [("old"%string, VNum 1)]]
         [("searchIndex"%string, VRef 0)] [])
    = (State
         ([Object [("old"%string, VNum 1)]]
          ++ (shift_cell 1 <$> st_heap (built idle_host)))
         [("searchIndex"%string, VRef 1)]
         [Call "initSearch" [VRef 1]
            ([Object [("old"%string, VNum 1)]]
             ++ (shift_cell 1 <$> st_heap (built idle_host)))],
       Normal tt).
Proof.
  split; [reflexivity|].
  apply (script_from_any_state idle_host
           [Object [("old"%string, VNum 1)]]
           [("searchIndex"%string, VRef 0)] []).
  reflexivity.
Defined.

End EvaluationSpec.
